(** * node-a2conf: the Apache configuration tree of [src/a2conf.ts]

    A shallow embedding of the [Node] class: the constructor that parses
    one line, the tree operations ([add], [insert], [set], [children],
    [first], [extend], [findVHost]), the line parsers [readText] and
    [readFile] with include resolution, and the serializer [dump].

    JavaScript objects live in a store ([heap]): a node is referred to by
    its address, which is also its identity (the [id] weak map of the
    source).  A method that reads or writes objects is a function on the
    [world] (the store and the console) with an [outcome]: a value, an
    exception, or no answer within the allowed depth of recursion
    ([fuel], for [readFile], [dump] and the recursive [children], which
    need not terminate on every store or file system).  An address that
    is not in the store does not occur in a run of the program; reading
    it gives nothing and writing to it does nothing.

    Strings are lists of characters; a character is an 8-bit code unit,
    that is, the Latin-1 range of a JavaScript string. *)

From Stdlib Require Import Ascii String ZArith Lia.
From stdpp Require Import base option list.

#[local] Set Warnings "-register-all".

Local Open Scope char_scope.
Local Open Scope list_scope.

(** ** Strings *)

Abbreviation str := (list ascii).

(** A string literal as a list of characters. *)
Definition lit (s : string) : str := list_ascii_of_string s.

Definition chr_eqb (a b : ascii) : bool := Ascii.eqb a b.
Arguments chr_eqb : simpl never.

#[global] Instance ascii_eq_decision : EqDecision ascii := Ascii.ascii_dec.

Module Chars.
Definition tab : ascii := ascii_of_nat 9.
Definition lf : ascii := ascii_of_nat 10.
Definition vt : ascii := ascii_of_nat 11.
Definition ff : ascii := ascii_of_nat 12.
Definition cr : ascii := ascii_of_nat 13.
Definition nbsp : ascii := ascii_of_nat 160.
End Chars.

(** The characters that [String.prototype.trim] strips (WhiteSpace and
    LineTerminator of ECMAScript, in the 8-bit range). *)
Definition is_ws (c : ascii) : bool :=
  chr_eqb c " " || chr_eqb c Chars.tab || chr_eqb c Chars.lf
  || chr_eqb c Chars.vt || chr_eqb c Chars.ff || chr_eqb c Chars.cr
  || chr_eqb c Chars.nbsp.

(** The regular-expression class [[ \t]]. *)
Definition is_sptab (c : ascii) : bool :=
  chr_eqb c " " || chr_eqb c Chars.tab.

(** The characters that [.] does not match. *)
Definition is_lineterm (c : ascii) : bool :=
  chr_eqb c Chars.lf || chr_eqb c Chars.cr.

Fixpoint takeWhile (p : ascii -> bool) (s : str) : str :=
  match s with
  | [] => []
  | c :: r => if p c then c :: takeWhile p r else []
  end.

Fixpoint dropWhile (p : ascii -> bool) (s : str) : str :=
  match s with
  | [] => []
  | c :: r => if p c then dropWhile p r else s
  end.

(** [s.trim()] *)
Definition trim (s : str) : str :=
  rev (dropWhile is_ws (rev (dropWhile is_ws s))).

(** [s.split(sep)] for a one-character separator: never empty. *)
Fixpoint split (sep : ascii) (s : str) : list str :=
  match s with
  | [] => [[]]
  | c :: r =>
      if chr_eqb c sep then [] :: split sep r
      else match split sep r with
           | p :: ps => (c :: p) :: ps
           | [] => [[c]]
           end
  end.

(** [s.split(sep)[0]]: the text before the first separator. *)
Definition split_head (sep : ascii) (s : str) : str :=
  match split sep s with
  | p :: _ => p
  | [] => []
  end.

Fixpoint str_eqb (a b : str) : bool :=
  match a, b with
  | [], [] => true
  | x :: a', y :: b' => chr_eqb x y && str_eqb a' b'
  | _, _ => false
  end.

Fixpoint startsWith (p s : str) : bool :=
  match p, s with
  | [], _ => true
  | x :: p', y :: s' => chr_eqb x y && startsWith p' s'
  | _ :: _, [] => false
  end.

Definition endsWith (p s : str) : bool := startsWith (rev p) (rev s).

(** [s.includes(p)]: [p] occurs in [s] as a substring. *)
Fixpoint includes_str (p s : str) : bool :=
  startsWith p s ||
  match s with
  | [] => false
  | _ :: r => includes_str p r
  end.

(** [s.toLowerCase()] on the 8-bit range: A-Z, and the accented capitals
    U+00C0..U+00DE except the multiplication sign U+00D7. *)
Definition lower_chr (c : ascii) : ascii :=
  let n := nat_of_ascii c in
  if (65 <=? n)%nat && (n <=? 90)%nat then ascii_of_nat (n + 32)
  else if (192 <=? n)%nat && (n <=? 222)%nat && negb (n =? 215)%nat
       then ascii_of_nat (n + 32)
  else c.

Definition toLowerCase (s : str) : str := map lower_chr s.

(** [s.repeat(n)]: a RangeError (here [None]) for a negative count. *)
Definition repeat_str (s : str) (n : Z) : option str :=
  if (n <? 0)%Z then None else Some (concat (replicate (Z.to_nat n) s)).

(** ** The regular expressions of the source *)

(** The suffix pattern, [#] followed by any characters up to the end of
    the string: the leftmost [#] from which no line terminator follows. *)
Fixpoint match_suffix (s : str) : option str :=
  match s with
  | [] => None
  | c :: r =>
      if chr_eqb c "#" && forallb (fun x => negb (is_lineterm x)) r
      then Some s
      else match_suffix r
  end.

(** The pattern of [isOpen]: leading blanks, then [<] not followed by a
    slash, anchored at the start. *)
Definition match_isOpen (s : str) : bool :=
  match dropWhile is_sptab s with
  | c :: r =>
      chr_eqb c "<" &&
      match r with
      | d :: _ => negb (chr_eqb d "/")
      | [] => true
      end
  | [] => false
  end.

(** The pattern of [isClose]: blanks, [<] and a slash, with no anchor, so
    that it matches whenever the text contains these two characters. *)
Definition match_isClose (s : str) : bool := includes_str (lit "</") s.

Definition is_tagchar (c : ascii) : bool :=
  negb (chr_eqb c " ") && negb (chr_eqb c ">").

(** The open-tag pattern: blanks, [<], group 1 (one or more characters
    other than space and [>]), group 2 (any characters other than [>]),
    with no anchor.  The leftmost match is at
    the first [<] that a character other than space and [>] follows;
    both groups are greedy.  The result is the pair of groups 1 and 2. *)
Fixpoint match_open_tag (s : str) : option (str * str) :=
  match s with
  | [] => None
  | c :: r =>
      if chr_eqb c "<" then
        match takeWhile is_tagchar r with
        | [] => match_open_tag r
        | n => Some (n, takeWhile (fun x => negb (chr_eqb x ">"))
                          (dropWhile is_tagchar r))
        end
      else match_open_tag r
  end.

(** The close-tag pattern: as the open-tag pattern, with group 1 starting
    with a slash that at least one tag character follows. *)
Fixpoint match_close_tag (s : str) : option (str * str) :=
  match s with
  | [] => None
  | c :: r =>
      if chr_eqb c "<" then
        match r with
        | d :: r' =>
            if chr_eqb d "/" then
              match takeWhile is_tagchar r' with
              | [] => match_close_tag r
              | n => Some (d :: n,
                           takeWhile (fun x => negb (chr_eqb x ">"))
                             (dropWhile is_tagchar r'))
              end
            else match_close_tag r
        | [] => None
        end
      else match_close_tag r
  end.

(** The directive pattern: blanks, group 1 (one or more non-blank
    characters), blanks, group 2 (any characters other than [#]), with no
    anchor.  Leading blanks are skipped; the match fails only when nothing
    but blanks is left. *)
Definition match_cmdline (s : str) : option (str * str) :=
  match dropWhile is_sptab s with
  | [] => None
  | r =>
      let c := takeWhile (fun x => negb (is_sptab x)) r in
      let r' := dropWhile is_sptab (dropWhile (fun x => negb (is_sptab x)) r) in
      Some (c, takeWhile (fun x => negb (chr_eqb x "#")) r')
  end.

(** ** Nodes and the store *)

(** A node's address in the store, which is its identity. *)
Abbreviation id := nat.

Record Node := mkNode {
  raw : option str;
  parent : option id;
  name : str;
  path : option str;
  line : option nat;
  includes : bool;
  content : list id;
  prefix : str;
  section : option str;
  cmd : option str;
  args : str;
  suffix : option str;
  lastChild : option id;
}.

Record NodeProps := mkProps {
  p_raw : option str;
  p_parent : option id;
  p_name : option str;
  p_path : option str;
  p_line : option nat;
  p_includes : option bool;
}.

Definition no_props : NodeProps := mkProps None None None None None None.

Abbreviation heap := (list Node).

Inductive exn :=
  | CannotParse (cmdline : str)
  | ChildNotNode
  | InvalidCount
  | NoEntry (p : str).

(** What a call comes to: a value, an exception, or no answer within the
    recursion depth allowed to it. *)
Inductive outcome (A : Type) : Type :=
  | Ret (a : A)
  | Throw (e : exn)
  | OutOfFuel.
Arguments Ret {A} a.
Arguments Throw {A} e.
Arguments OutOfFuel {A}.

Definition outcome_map {A B} (f : A -> B) (o : outcome A) : outcome B :=
  match o with
  | Ret a => Ret (f a)
  | Throw e => Throw e
  | OutOfFuel => OutOfFuel
  end.

(** A JavaScript string used as a condition: defined and not empty. *)
Definition truthy (s : option str) : bool :=
  match s with
  | Some (_ :: _) => true
  | _ => false
  end.

Definition isOpen_raw (r : option str) : bool :=
  match r with
  | Some (c :: s) => match_isOpen (c :: s)
  | _ => false
  end.

Definition isClose_raw (r : option str) : bool :=
  match r with
  | Some (c :: s) => match_isClose (c :: s)
  | _ => false
  end.

(** [this.raw.trim().split(' ')[0]], closed with [>] when it starts a tag. *)
Definition guess_name (r : str) : str :=
  let n := split_head " " (trim r) in
  if startsWith (lit "<") n && negb (endsWith (lit ">") n)
  then n ++ lit ">" else n.

(** The constructor: it parses the raw line, when there is one. *)
Definition new_Node (p : NodeProps) : outcome Node :=
  let suffix0 :=
    if truthy (p_raw p) then
      match match_suffix (default [] (p_raw p)) with
      | Some m => Some m
      | None => Some []
      end
    else None in
  let name0 :=
    if truthy (p_name p) then default [] (p_name p)
    else if truthy (p_raw p) then guess_name (default [] (p_raw p))
    else lit "#root" in
  let base :=
    mkNode (p_raw p) (p_parent p) name0 (p_path p) (p_line p)
           (default true (p_includes p)) [] (lit "    ")
           None None [] suffix0 None in
  let with_tag (sec : option str) (a : str) :=
    mkNode (p_raw p) (p_parent p) name0 (p_path p) (p_line p)
           (default true (p_includes p)) [] (lit "    ")
           sec None a suffix0 None in
  let with_cmd (c : str) (a : str) :=
    mkNode (p_raw p) (p_parent p) name0 (p_path p) (p_line p)
           (default true (p_includes p)) [] (lit "    ")
           None (Some c) a suffix0 None in
  if truthy (p_raw p) then
    let r := default [] (p_raw p) in
    if isOpen_raw (p_raw p) then
      match match_open_tag r with
      | Some (m1, m2) => Ret (with_tag (Some m1) (trim m2))
      | None => Ret base
      end
    else if isClose_raw (p_raw p) then
      match match_close_tag r with
      | Some (m1, _) => Ret (with_tag (Some m1) [])
      | None => Ret base
      end
    else
      let cmdline := trim (split_head "#" r) in
      match cmdline with
      | [] => Ret base
      | _ =>
          match match_cmdline cmdline with
          | None => Throw (CannotParse cmdline)
          | Some (m1, m2) => Ret (with_cmd m1 (trim m2))
          end
      end
  else Ret base.

Definition of_raw (r : str) : NodeProps :=
  mkProps (Some r) None None None None None.

(** ** The store, and the world the methods run in *)

(** The store and the console ([console.warn] appends a line). *)
Record world := mkWorld {
  store : heap;
  console : list str;
}.

(** A method call: it transforms the world and comes to an [outcome]. *)
Definition M (A : Type) : Type := world -> outcome A * world.

Definition ret {A} (a : A) : M A := fun w => (Ret a, w).

Definition throw {A} (e : exn) : M A := fun w => (Throw e, w).

Definition out_of_fuel {A} : M A := fun w => (OutOfFuel, w).

Definition bind {A B} (m : M A) (k : A -> M B) : M B :=
  fun w =>
    match m w with
    | (Ret a, w') => k a w'
    | (Throw e, w') => (Throw e, w')
    | (OutOfFuel, w') => (OutOfFuel, w')
    end.

Notation "'let!' x ':=' m 'in' k" := (bind m (fun x => k))
  (at level 10, x pattern, m at level 100, k at level 200, only parsing).
Notation "m ';;' k" := (bind m (fun _ => k))
  (at level 100, k at level 200, right associativity, only parsing).

(** [try { m } catch (err) { handler }]: what [m] did to the world stays. *)
Definition try_catch {A} (m : M A) (handler : exn -> M A) : M A :=
  fun w =>
    match m w with
    | (Throw e, w') => handler e w'
    | r => r
    end.

Definition lift {A} (o : outcome A) : M A := fun w => (o, w).

(** [new Node(props)]: the object gets the next free address. *)
Definition alloc (n : Node) : M id :=
  fun w => (Ret (length (store w)), mkWorld (store w ++ [n]) (console w)).

Definition construct (p : NodeProps) : M id :=
  let! n := lift (new_Node p) in alloc n.

(** Reading a field of the object at an address. *)
Definition field {A} (f : Node -> A) (i : id) : M (option A) :=
  fun w => (Ret (f <$> store w !! i), w).

(** Assigning to fields of the object at an address. *)
Definition modify (i : id) (f : Node -> Node) : M unit :=
  fun w => (Ret tt, mkWorld (alter f i (store w)) (console w)).

Definition warn (msg : str) : M unit :=
  fun w => (Ret tt, mkWorld (store w) (console w ++ [msg])).

Definition with_content (c : list id) (n : Node) : Node :=
  mkNode (raw n) (parent n) (name n) (path n) (line n) (includes n) c
         (prefix n) (section n) (cmd n) (args n) (suffix n) (lastChild n).

Definition with_lastChild (l : option id) (n : Node) : Node :=
  mkNode (raw n) (parent n) (name n) (path n) (line n) (includes n)
         (content n) (prefix n) (section n) (cmd n) (args n) (suffix n) l.

Definition with_args (a : str) (n : Node) : Node :=
  mkNode (raw n) (parent n) (name n) (path n) (line n) (includes n)
         (content n) (prefix n) (section n) (cmd n) a (suffix n)
         (lastChild n).

Definition with_path (p : option str) (n : Node) : Node :=
  mkNode (raw n) (parent n) (name n) p (line n) (includes n)
         (content n) (prefix n) (section n) (cmd n) (args n) (suffix n)
         (lastChild n).

(** A JavaScript value passed where the source expects a node or a
    string. *)
Inductive value :=
  | VNode (i : id)
  | VString (s : str)
  | VUndefined.

(** The name test of [children] and [insert]:
    [c.name.toLowerCase() === name.toLowerCase()]. *)
Definition name_matches (h : heap) (c : id) (n : str) : bool :=
  match h !! c with
  | Some nd => str_eqb (toLowerCase (name nd)) (toLowerCase n)
  | None => false
  end.

(** A value of type [string | null] inside a template literal. *)
Definition show_null (s : option str) : str := default (lit "null") s.

Module Node.

Definition isOpen (n : Node) : bool := isOpen_raw (raw n).

Definition isClose (n : Node) : bool := isClose_raw (raw n).

(** The two assignments of [add]:
    [this.content.push(child); this.lastChild = child]. *)
Definition push_child (c : id) (n : Node) : Node :=
  with_lastChild (Some c) (with_content (content n ++ [c]) n).

(** [add(child)] *)
Definition add (this : id) (child : value) : M unit :=
  match child with
  | VNode c => modify this (push_child c)
  | _ => throw ChildNotNode
  end.

(** [addRaw(raw)] *)
Definition addRaw (this : id) (r : str) : M unit :=
  let! sl := construct (mkProps (Some r) (Some this) None None None None) in
  add this (VNode sl).

(** The local function [getIndex] of [insert]: one past the last
    position whose node is [after] (a node) or is named [after] (a
    string); [-1] when there is none. *)
Definition after_hit (h : heap) (after : value) (c : id) : bool :=
  match after with
  | VNode a => Nat.eqb c a
  | VString a => name_matches h c a
  | VUndefined => false
  end.

Fixpoint getIndex_from (h : heap) (cs : list id) (after : value)
    (i : Z) (idx : Z) : Z :=
  match cs with
  | [] => idx
  | c :: cs' =>
      getIndex_from h cs' after (i + 1)%Z
        (if after_hit h after c then (i + 1)%Z else idx)
  end.

Definition getIndex (h : heap) (cs : list id) (after : value) : Z :=
  getIndex_from h cs after 0%Z (-1)%Z.

(** [content.splice(idx, 0, ...childNodes)] *)
Definition splice (idx : nat) (new : list id) (cs : list id) : list id :=
  take idx cs ++ new ++ drop idx cs.

(** [insert(childNode, afterNode)]: the result is [childNodes[0]]. *)
Definition insert (this : id) (childNode : value) (afterNode : value)
    : M (option id) :=
  let after :=
    match afterNode with
    | VUndefined => []
    | a => [a]
    end in
  let! childNodes :=
    match childNode with
    | VString x => let! c := construct (of_raw x) in ret [c]
    | VNode c => ret [c]
    | VUndefined => ret []
    end in
  let! cs := field content this in
  let cs := default [] cs in
  fun w =>
    match
      list_find (fun a => bool_decide (-1 < getIndex (store w) cs a)%Z)
                (rev after)
    with
    | Some (_, a) =>
        (modify this (with_content
           (splice (Z.to_nat (getIndex (store w) cs a)) childNodes cs)) ;;
         ret (head childNodes)) w
    | None =>
        (modify this (with_content (cs ++ childNodes)) ;;
         ret (head childNodes)) w
    end.

(** [children(name, { recursive })]: a recursive call costs one unit
    of [fuel]. *)
Fixpoint children (fuel : nat) (h : heap) (this : id)
    (nm : option str) (recursive : bool) : outcome (list id) :=
  let fix loop (cs : list id) : outcome (list id) :=
    match cs with
    | [] => Ret []
    | c :: cs' =>
        let own :=
          if truthy nm then
            if name_matches h c (default [] nm) then [c] else []
          else [c] in
        let sub :=
          if recursive then
            match fuel with
            | O => OutOfFuel
            | S fuel' => children fuel' h c nm recursive
            end
          else Ret [] in
        match sub with
        | Ret s =>
            match loop cs' with
            | Ret rest => Ret (own ++ s ++ rest)
            | r => r
            end
        | r => r
        end
    end in
  loop (default [] (content <$> h !! this)).

(** [first(name, { recursive })] *)
Definition first (fuel : nat) (h : heap) (this : id)
    (nm : option str) (recursive : bool) : outcome (option id) :=
  outcome_map head (children fuel h this nm recursive).

(** The loop of [set]: [property.args = value] for each property. *)
Fixpoint assign_args (v : str) (properties : list id) : M unit :=
  match properties with
  | [] => ret tt
  | property :: rest => modify property (with_args v) ;; assign_args v rest
  end.

(** [set(name, value)] *)
Definition set (this : id) (nm : str) (v : str) : M unit :=
  fun w =>
    match children 0 (store w) this (Some nm) false with
    | Ret [] => (insert this (VString (nm ++ lit " " ++ v)) VUndefined ;;
                 ret tt) w
    | Ret properties => assign_args v properties w
    | Throw e => (Throw e, w)
    | OutOfFuel => (OutOfFuel, w)
    end.

(** [extend(n)] *)
Definition extend (this : id) (n : id) : M unit :=
  let! cs := field content n in
  modify this (fun t => with_content (content t ++ default [] cs) t).

(** [delete()] *)
Definition delete (this : id) : M unit :=
  let! p := field parent this in
  match p with
  | Some (Some q) =>
      modify q (fun n =>
        with_content (filter (fun c => c <> this) (content n)) n)
  | _ => ret tt
  end.

(** [getOpenTag()] *)
Definition getOpenTag (n : Node) : str :=
  lit "<" ++ show_null (section n) ++ lit " " ++ args n ++ lit ">".

(** [getCloseTag()] *)
Definition getCloseTag (n : Node) : str :=
  lit "</" ++ show_null (section n) ++ lit ">".

(** [toString()]: [this.name || this.raw]; [undefined] is [None]. *)
Definition toString (n : Node) : option str :=
  match name n with
  | [] => raw n
  | nm => Some nm
  end.

(** The test of the local function [ff] of [filter]:
    [!c.raw?.match(new RegExp(regex, 'i'))], where [matches s] tells
    whether the regular expression made of the pattern, with the flag
    [i], matches [s]. *)
Definition ff_keeps (matches : str -> bool) (r : option str) : bool :=
  match r with
  | Some s => negb (matches s)
  | None => true
  end.

(** [filter(pattern)], for a pattern that is a regular expression: the
    children are visited in order, a child with a section is filtered
    first, and the children that the pattern does not match are kept.
    A call on a child costs one unit of [fuel]. *)
Fixpoint filter (matches : str -> bool) (fuel : nat) (this : id) : M unit :=
  let fix each (cs : list id) : M (list id) :=
    match cs with
    | [] => ret []
    | c :: cs' =>
        let! sec := field section c in
        (if truthy (mjoin sec) then
           match fuel with
           | O => out_of_fuel
           | S fuel' => filter matches fuel' c
           end
         else ret tt) ;;
        let! r := field raw c in
        let! rest := each cs' in
        ret (if ff_keeps matches (mjoin r) then c :: rest else rest)
    end in
  let! cs := field content this in
  let! kept := each (default [] cs) in
  modify this (with_content kept).

End Node.

(** ** The serializer *)

(** [this.children.length]: [children] is the method, so this is the
    number of its parameters that come before the first default value,
    whatever the node holds (and 2 when the default is compiled away:
    positive in both cases). *)
Definition children_length : nat := 1.

Definition repeat_prefix (n : Node) (depth : Z) : outcome str :=
  match repeat_str (prefix n) depth with
  | Some s => Ret s
  | None => Throw InvalidCount
  end.

Definition paddedSuffix (n : Node) : str :=
  if truthy (suffix n) then lit " " ++ default [] (suffix n) else [].

Definition nl : str := [Chars.lf].

(** [dump(depth)]: a call on a child costs one unit of [fuel]. *)
Fixpoint dump (fuel : nat) (h : heap) (this : id) (depth : Z)
    : outcome str :=
  let fix each (cs : list id) (d : Z) : outcome str :=
    match cs with
    | [] => Ret []
    | c :: cs' =>
        match fuel with
        | O => OutOfFuel
        | S fuel' =>
            match dump fuel' h c d with
            | Ret s => outcome_map (app s) (each cs' d)
            | r => r
            end
        end
    end in
  match h !! this with
  | None => Ret []
  | Some n =>
      if truthy (cmd n) then
        outcome_map
          (fun ind => ind ++ default [] (cmd n) ++ lit " " ++ args n
                          ++ paddedSuffix n ++ nl)
          (repeat_prefix n depth)
      else if truthy (section n) then
        let sec := default [] (section n) in
        let lineDepth :=
          if startsWith (lit "/") sec then (depth - 1)%Z else depth in
        match repeat_prefix n lineDepth with
        | Ret ind =>
            let open :=
              match args n with
              | _ :: _ => ind ++ lit "<" ++ sec ++ lit " " ++ args n
                              ++ lit ">" ++ paddedSuffix n ++ nl
              | [] => ind ++ lit "<" ++ sec ++ lit ">" ++ paddedSuffix n ++ nl
              end in
            if (0 <? children_length)%nat then
              match each (content n) (depth + 1)%Z with
              | Ret body =>
                  outcome_map
                    (fun ind' => open ++ body ++ ind' ++ lit "</" ++ sec
                                      ++ lit ">" ++ nl)
                    (repeat_prefix n lineDepth)
              | r => r
              end
            else Ret open
        | r => r
        end
      else
        let own :=
          if truthy (suffix n) then
            outcome_map (fun ind => ind ++ default [] (suffix n) ++ nl)
                        (repeat_prefix n depth)
          else if truthy (raw n) then Ret nl
          else Ret [] in
        match own with
        | Ret o =>
            if (0 <? children_length)%nat then
              outcome_map (app o) (each (content n) depth)
            else Ret o
        | r => r
        end
  end.

(** ** Virtual host lookup *)

(** The local function [getAllHostnames] of [findVHost]; the first
    element is [undefined] ([None]) when there is no [ServerName]. *)
Definition getAllHostnames (h : heap) (vhost : id) : list (option str) :=
  let servername :=
    match Node.first 0 h vhost (Some (lit "ServerName")) false with
    | Ret (Some s) => args <$> h !! s
    | _ => None
    end in
  let aliases :=
    match Node.children 0 h vhost (Some (lit "ServerAlias")) false with
    | Ret l => l
    | _ => []
    end in
  servername ::
  flat_map (fun a => Some <$> split " " (default [] (args <$> h !! a)))
           aliases.

Definition hostname_in (hostname : str) (names : list (option str)) : bool :=
  existsb (fun n => match n with
                    | Some x => str_eqb x hostname
                    | None => false
                    end) names.

(** The loop of [findVHost] over the sections. *)
Fixpoint scan_vhosts (h : heap) (hostname : str) (arg : option str)
    (vs : list id) : option id :=
  match vs with
  | [] => None
  | vhost :: vs' =>
      if truthy arg &&
         negb (includes_str (default [] arg)
                 (default [] (args <$> h !! vhost)))
      then scan_vhosts h hostname arg vs'
      else if hostname_in hostname (getAllHostnames h vhost)
           then Some vhost
           else scan_vhosts h hostname arg vs'
  end.

(** [findVHost(hostname, arg)]; [null] is [None]. *)
Definition findVHost (h : heap) (this : id) (hostname : str)
    (arg : option str) : option id :=
  match Node.children 0 h this (Some (lit "<VirtualHost>")) false with
  | Ret vhosts => scan_vhosts h hostname arg vhosts
  | _ => None
  end.

(** ** The parser and the include resolver *)

(** The file system and path functions the parser calls ([fs], [path],
    [glob], [readline]). *)
Record Env := mkEnv {
  (** [path.join(p)] *)
  path_join1 : str -> str;
  (** [path.join(p, q)] *)
  path_join2 : str -> str -> str;
  (** [path.dirname(p)] *)
  path_dirname : str -> str;
  (** [existsSync(p)] *)
  existsSync : str -> bool;
  (** [lstatSync(p).isDirectory()]; [None] when [lstatSync] throws
      because there is no such entry *)
  lstat_isDirectory : str -> option bool;
  (** [glob.sync(pattern)] *)
  glob_sync : str -> list str;
  (** the lines [readline] yields from [createReadStream(p)]; [None]
      when the stream fails *)
  file_lines : str -> option (list str);
}.

Definition is_include_name (n : str) : bool :=
  let l := toLowerCase n in
  str_eqb l (lit "include") || str_eqb l (lit "includeoptional").

Section Parser.

Variable E : Env.

(** The recursive call [subNode.readFile(path)]. *)
Variable readFile_rec : id -> str -> M unit.

(** [parent?.add(node)] *)
Definition add_to (cur : option id) (node : id) : M unit :=
  match cur with
  | Some p => Node.add p (VNode node)
  | None => ret tt
  end.

(** The branch on the new node: a section open is added and becomes
    the parent, a section close moves the parent up and is not added,
    anything else is added.  The result is the next parent. *)
Definition place (cur : option id) (node : id) (n : Node)
    : M (option id) :=
  if Node.isOpen n then
    add_to cur node ;; ret (Some node)
  else if Node.isClose n then
    let! pp := match cur with
               | Some p => field parent p
               | None => ret None
               end
    in ret (mjoin pp)
  else
    add_to cur node ;; ret cur.

(** The body of the loop over the matched files. *)
Definition import_file (this : id) (l : str) (p : str) : M unit :=
  try_catch
    (let! subNode :=
       construct (mkProps None None None (Some p) None None) in
     readFile_rec subNode p ;;
     Node.extend this subNode)
    (fun _ =>
       warn (lit "WARN failed to import " ++ p ++ lit " (" ++ l ++ lit ")")).

Fixpoint import_files (this : id) (l : str) (ps : list str) : M unit :=
  match ps with
  | [] => ret tt
  | p :: ps' => import_file this l p ;; import_files this l ps'
  end.

(** The include step of [readText]: the path is taken as given. *)
Definition resolve_text (a : str) : M (list str) :=
  let fullpath := path_join1 E a in
  let fullpath :=
    if existsSync E fullpath &&
       bool_decide (lstat_isDirectory E fullpath = Some true)
    then path_join2 E fullpath (lit "*") else fullpath in
  ret (glob_sync E (path_join1 E fullpath)).

(** The include step of [readFile]: the path is relative to the
    directory of the file, and [lstatSync] is called on it at once. *)
Definition resolve_file (filename : str) (a : str) : M (list str) :=
  let basedir := path_dirname E filename in
  let fullpath := path_join2 E basedir a in
  match lstat_isDirectory E fullpath with
  | None => throw (NoEntry fullpath)
  | Some isdir =>
      let fullpath :=
        if isdir then path_join2 E fullpath (lit "*") else fullpath in
      ret (glob_sync E (path_join1 E fullpath))
  end.

(** One turn of the loop over the lines, shared by [readText] and
    [readFile]; the state of the loop is the variable [parent] of the
    source, here [cur]. *)
Definition read_line (resolve : str -> M (list str)) (this : id)
    (file : option str) (cur : option id) (lineIndex : nat)
    (line : str) : M (option id) :=
  let l := trim line in
  match l with
  | [] => ret cur
  | _ =>
      let! n := lift (new_Node (mkProps (Some l) cur None file
                                        (Some lineIndex) None)) in
      let! node := alloc n in
      let! parent' := place cur node n in
      let! inc := field includes this in
      if default false inc && is_include_name (name n) then
        let! a := field args node in
        let! matches := resolve (default [] a) in
        import_files this l matches ;;
        ret parent'
      else ret parent'
  end.

Fixpoint read_lines (resolve : str -> M (list str)) (this : id)
    (file : option str) (cur : option id) (lineIndex : nat)
    (lines : list str) : M (option id) :=
  match lines with
  | [] => ret cur
  | line :: rest =>
      let! parent' :=
        read_line resolve this file cur (S lineIndex) line in
      read_lines resolve this file parent' (S lineIndex) rest
  end.

End Parser.

(** [readFile(filename)]: a nested [readFile] costs one unit of [fuel]. *)
Fixpoint readFile (E : Env) (fuel : nat) (this : id) (filename : str)
    : M unit :=
  match fuel with
  | O => out_of_fuel
  | S fuel' =>
      modify this (with_path (Some filename)) ;;
      match file_lines E filename with
      | None => throw (NoEntry filename)
      | Some lines =>
          read_lines (readFile E fuel') (resolve_file E filename) this
                     (Some filename) (Some this) 0 lines ;;
          ret tt
      end
  end.

(** [readText(text)] *)
Definition readText (E : Env) (fuel : nat) (this : id) (text : str)
    : M unit :=
  read_lines (readFile E fuel) (resolve_text E) this None (Some this) 0
             (split Chars.lf text) ;;
  ret tt.

(** [fromFile(fileName, props)]: the result is the root. *)
Definition fromFile (E : Env) (fuel : nat) (fileName : str)
    (props : NodeProps) : M id :=
  let! node := construct props in
  readFile E (S fuel) node fileName ;;
  ret node.

(** [fromText(text, props)]: the result is the root. *)
Definition fromText (E : Env) (fuel : nat) (text : str)
    (props : NodeProps) : M id :=
  let! node := construct props in
  readText E fuel node text ;;
  ret node.

(** A file system with nothing in it. *)
Definition empty_env : Env :=
  mkEnv (fun p => p) (fun p q => p ++ lit "/" ++ q) (fun _ => lit ".")
        (fun _ => false) (fun _ => None) (fun _ => []) (fun _ => None).

Definition empty_world : world := mkWorld [] [].

Definition no_includes : NodeProps :=
  mkProps None None None None None (Some false).

(** ** Definitions used in the statements and in the proofs *)

(** A root, and a directive made by [new Node({ raw })] and not added
    yet. *)
Definition two_nodes : world :=
  mkWorld
    [ mkNode None None (lit "#root") None None true [] (lit "    ")
             None None [] None None;
      mkNode (Some (lit "ServerName example.com")) None (lit "ServerName")
             None None true [] (lit "    ") None (Some (lit "ServerName"))
             (lit "example.com") (Some []) None ]
    [].



(** The direct children that [children(name)] returns: all of them when
    the name is absent or empty, else those whose name is [name] up to
    case. *)
Definition direct_children (h : heap) (this : id) (nm : option str)
    : list id :=
  let cs := default [] (content <$> h !! this) in
  if truthy nm then List.filter (fun c => name_matches h c (default [] nm)) cs
  else cs.

(** The line feed, to write texts of several lines. *)
Definition nlc : string := String Chars.lf EmptyString.

(** A section with nothing between its open and its close line. *)
Definition empty_section_text : str :=
  lit ("<Directory /srv>" ++ nlc ++ "</Directory>").

(** The candidate host names of a section: the whole args of its first
    direct [ServerName] child ([None] when it has none), then every piece
    of the args of each direct [ServerAlias] child, cut at each single
    space. *)
Definition candidate_hostnames (h : heap) (v : id) : list (option str) :=
  (head (direct_children h v (Some (lit "ServerName"))) ≫= fun s =>
     args <$> h !! s)
  :: flat_map (fun a => Some <$> split " " (default [] (args <$> h !! a)))
       (direct_children h v (Some (lit "ServerAlias"))).

(** A section passes when [arg] is absent (or empty) or occurs in its
    args, and [hostname] is one of its candidates. *)
Definition vhost_qualifies (h : heap) (hostname : str) (arg : option str)
    (v : id) : bool :=
  (negb (truthy arg) ||
   includes_str (default [] arg) (default [] (args <$> h !! v)))
  && existsb (fun n => bool_decide (n = Some hostname))
             (candidate_hostnames h v).

(** Modelled from the claim's words, to compare with the code: the tokens
    of a string separated by white space. *)
Fixpoint whitespace_tokens_from (cur : str) (s : str) : list str :=
  match s with
  | [] => match cur with [] => [] | _ => [rev cur] end
  | c :: r =>
      if is_ws c then
        match cur with
        | [] => whitespace_tokens_from [] r
        | _ => rev cur :: whitespace_tokens_from [] r
        end
      else whitespace_tokens_from (c :: cur) r
  end.

Definition whitespace_tokens (s : str) : list str :=
  whitespace_tokens_from [] s.

(** The candidates as C7 words them. *)
Definition claimed_hostnames (h : heap) (v : id) : list (option str) :=
  (head (direct_children h v (Some (lit "ServerName"))) ≫= fun s =>
     args <$> h !! s)
  :: flat_map (fun a =>
                 Some <$> whitespace_tokens (default [] (args <$> h !! a)))
       (direct_children h v (Some (lit "ServerAlias"))).

(** [findVHost] as C7 words it. *)
Definition claimed_findVHost (h : heap) (this : id) (hostname : str)
    (arg : option str) : option id :=
  head (List.filter
          (fun v =>
             (negb (truthy arg) ||
              includes_str (default [] arg) (default [] (args <$> h !! v)))
             && existsb (fun n => bool_decide (n = Some hostname))
                        (claimed_hostnames h v))
          (direct_children h this (Some (lit "<VirtualHost>")))).

(** A virtual host whose two aliases are separated by a tab. *)
Definition tabbed_alias_text : str :=
  lit ("<VirtualHost *:80>" ++ nlc ++
       "ServerName example.com" ++ nlc ++
       "ServerAlias www.example.com" ++ String Chars.tab "x.example.com" ++ nlc ++
       "</VirtualHost>").

(** A directory with one file, [site.conf], whose second line includes a
    file that is not there. *)
Definition site_env : Env :=
  let site := lit "site.conf" in
  mkEnv (fun p => p)
        (fun d p => if str_eqb d (lit ".") then p else d ++ lit "/" ++ p)
        (fun _ => lit ".")
        (fun p => str_eqb p site)
        (fun p => if str_eqb p site then Some false else None)
        (fun p => if str_eqb p site then [site] else [])
        (fun p =>
           if str_eqb p site
           then Some [lit "ServerName example.com";
                      lit "Include missing.conf";
                      lit "ServerAlias www.example.com"]
           else None).

(** The names of the children of a node, in order. *)
Definition node_names (w : world) (i : id) : list str :=
  omap (fun c => name <$> store w !! c)
       (default [] (content <$> store w !! i)).

(** What [place] does to the store and to the current parent. *)
Definition place_heap (h : heap) (cur : option id) (node : id) (n : Node)
    : option id * heap :=
  let added :=
    match cur with
    | Some p => alter (Node.push_child node) p h
    | None => h
    end in
  if Node.isOpen n then (Some node, added)
  else if Node.isClose n then (cur ≫= fun p => h !! p ≫= parent, h)
  else (cur, added).

(** The argument of the constructor for a line. *)
Definition line_props (l : str) (file : option str) (cur : option id)
    (idx : nat) : NodeProps :=
  mkProps (Some l) cur None file (Some idx) None.

(** One turn of the loop of [readText] or [readFile] on the store, when
    the root does not resolve includes. *)
Definition line_step (file : option str) (st : option id * heap)
    (idx : nat) (line : str) : option id * heap :=
  match trim line with
  | [] => st
  | l =>
      match new_Node (line_props l file (fst st) idx) with
      | Ret n => place_heap (snd st ++ [n]) (fst st) (length (snd st)) n
      | _ => st
      end
  end.

Fixpoint lines_step (file : option str) (st : option id * heap)
    (idx : nat) (lines : list str) : option id * heap :=
  match lines with
  | [] => st
  | line :: rest =>
      lines_step file (line_step file st (S idx) line) (S idx) rest
  end.

(** The store after an open line and a directive. *)
Definition vhost_world : world :=
  snd (fromText empty_env 0
         (lit ("<VirtualHost *:80>" ++ nlc ++ "ServerName example.com"))
         no_includes empty_world).

(** The parser away from the tree: the current parent, and the parent of
    every node from address [k] on, is absent or at [k] or later. *)
Definition detached (k : nat) (st : option id * heap) : Prop :=
  (forall p, fst st = Some p -> k <= p) /\
  (forall i n q, k <= i -> snd st !! i = Some n -> parent n = Some q -> k <= q)
  /\ k <= length (snd st).

(** A root that does not resolve includes. *)
Definition plain_root : world :=
  mkWorld [mkNode None None (lit "#root") None None false []
             (lit "    ") None None [] None None] [].

(** The store after one directive was read under [plain_root]. *)
Definition after_one_directive : world :=
  snd (read_lines (readFile empty_env 0) (resolve_text empty_env) 0 None
         (Some 0) 0 [lit "ServerName example.com"] plain_root).


(** A string of white space only. *)
Definition all_ws (s : str) : bool := forallb is_ws s.


(** [sub t s]: [t] occurs in [s]. *)
Definition sub (t s : str) : Prop := exists x y, s = x ++ t ++ y.













(** The node that the constructor makes of a raw line. *)
Definition line_node (l : str) : Node :=
  match new_Node (of_raw l) with
  | Ret n => n
  | _ => mkNode None None [] None None true [] [] None None [] None None
  end.

(** The line that [dump] writes for a node, without the indentation and
    the line feed. *)
Definition body (n : Node) : str :=
  if truthy (cmd n) then
    default [] (cmd n) ++ lit " " ++ args n ++ paddedSuffix n
  else if truthy (section n) then
    match args n with
    | _ :: _ => lit "<" ++ default [] (section n) ++ lit " " ++ args n
                    ++ lit ">" ++ paddedSuffix n
    | [] => lit "<" ++ default [] (section n) ++ lit ">" ++ paddedSuffix n
    end
  else default [] (suffix n).





(** A tree of lines: each node is the raw line it was parsed from. *)
Inductive tree := T (l : str) (kids : list tree).




(** The fields of a node of the store that come from its line. *)
Definition payload (n : Node) (l : str) : Prop :=
  raw n = Some l /\ cmd n = cmd (line_node l) /\
  section n = section (line_node l) /\ args n = args (line_node l) /\
  suffix n = suffix (line_node l) /\ prefix n = lit "    ".

(** [repr h lo hi t i]: the node at [i] and the nodes under it, all at
    addresses from [lo] up to [hi], make the tree [t]. *)
Fixpoint repr (h : heap) (lo hi : nat) (t : tree) (i : id) {struct t} : Prop :=
  match t with
  | T l kids =>
      (lo <= i < hi) /\
      exists n, h !! i = Some n /\ payload n l /\
        (fix reprs (ks : list tree) (cs : list id) {struct ks} : Prop :=
           match ks, cs with
           | [], [] => True
           | k :: ks', c :: cs' => repr h lo hi k c /\ reprs ks' cs'
           | _, _ => False
           end) kids (content n)
  end.

Definition reprs (h : heap) (lo hi : nat) (ks : list tree) (cs : list id)
    : Prop :=
  Forall2 (fun k c => repr h lo hi k c) ks cs.









(** The root as [fromText] makes it. *)
Definition root_ok (n : Node) : Prop :=
  raw n = None /\ cmd n = None /\ section n = None /\ args n = [] /\
  suffix n = None /\ parent n = None.


















(** A directory whose only entry, [broken.conf], cannot be read. *)
Definition broken_env : Env :=
  let f := lit "broken.conf" in
  mkEnv (fun p => p)
        (fun d p => if str_eqb d (lit ".") then p else d ++ lit "/" ++ p)
        (fun _ => lit ".")
        (fun p => str_eqb p f)
        (fun p => if str_eqb p f then Some false else None)
        (fun p => if str_eqb p f then [f] else [])
        (fun _ => None).

(** A directory with one file, [extra.conf], of one line. *)
Definition extra_env : Env :=
  let f := lit "extra.conf" in
  mkEnv (fun p => p)
        (fun d p => if str_eqb d (lit ".") then p else d ++ lit "/" ++ p)
        (fun _ => lit ".")
        (fun p => str_eqb p f)
        (fun p => if str_eqb p f then Some false else None)
        (fun p => if str_eqb p f then [f] else [])
        (fun p => if str_eqb p f then Some [lit "ServerName example.com"]
                  else None).

(** The calls of the test [add] of the repository. *)
Definition test_add : M id :=
  let! root := construct no_props in
  let! cmd := construct (of_raw (lit "ServerName example.com")) in
  Node.add root (VNode cmd) ;;
  Node.insert root (VString (lit "DocumentRoot /var/www/html")) VUndefined ;;
  Node.insert root (VString (lit "ServerAlias www.example.com"))
              (VString (lit "DocumentRoot")) ;;
  let! vhost := Node.insert root (VString (lit "<VirtualHost *:80>"))
                            VUndefined in
  match vhost with
  | Some v =>
      Node.insert v (VString (lit "ServerName example.net")) VUndefined ;;
      Node.insert v (VString (lit "DocumentRoot /var/www/examplenet/"))
                  VUndefined ;;
      Node.insert v (VString (lit "ServerAlias www.example.net"))
                  (VString (lit "servername")) ;;
      ret root
  | None => ret root
  end.

(** The text [c1] of the tests. *)
Definition c1_text : str :=
  lit (nlc ++
    "  # Test VirtualHost" ++ nlc ++
    "  <VirtualHost *:80 *:443>" ++ nlc ++
    "      ServerAdmin postmaster@example.com" ++ nlc ++
    "      ServerName example.com" ++ nlc ++
    "      ServerAlias www.example.com example.example.com" ++ nlc ++
    "      ServerAlias x.example.com" ++ nlc ++
    "      DocumentRoot /usr/local/apache/htdocs/example.com" ++ nlc ++
    nlc ++
    "      Command1 first" ++ nlc ++
    "      Command1 second" ++ nlc ++
    nlc ++
    "      <IfModule mod_ssl.c>" ++ nlc ++
    "          Command1 nested" ++ nlc ++
    "          SSLEngine on" ++ nlc ++
    "      </IfModule mod_ssl.c>" ++ nlc ++
    "  </VirtualHost>" ++ nlc ++
    "  ").

Definition c1_world : world :=
  snd (fromText empty_env 0 c1_text no_props empty_world).

(** * Properties *)

(** ** The constructor on examples *)

Example new_Node_directive :
  outcome_map (fun n => (name n, cmd n, args n, suffix n))
    (new_Node (of_raw (lit "ServerName  example.com # main"))) =
  Ret (lit "ServerName", Some (lit "ServerName"), lit "example.com",
       Some (lit "# main")).
Proof. reflexivity. Qed.

Example new_Node_section :
  outcome_map (fun n => (name n, section n, args n, cmd n))
    (new_Node (of_raw (lit "<VirtualHost *:80  *:443>"))) =
  Ret (lit "<VirtualHost>", Some (lit "VirtualHost"), lit "*:80  *:443", None).
Proof. reflexivity. Qed.

Example new_Node_close :
  outcome_map (fun n => (name n, section n, args n))
    (new_Node (of_raw (lit "</IfModule mod_ssl.c>"))) =
  Ret (lit "</IfModule>", Some (lit "/IfModule"), []).
Proof. reflexivity. Qed.

Example new_Node_root : outcome_map name (new_Node no_props) = Ret (lit "#root").
Proof. reflexivity. Qed.

(** ** The tests of the repository *)

Example test_add_result :
  let w := snd (test_add empty_world) in
  fst (test_add empty_world) = Ret 0 /\
  node_names w 0 = [lit "ServerName"; lit "DocumentRoot"; lit "ServerAlias";
                    lit "<VirtualHost>"] /\
  node_names w 4 = [lit "ServerName"; lit "ServerAlias"; lit "DocumentRoot"] /\
  lastChild <$> store w !! 0 = Some (Some 1) /\
  dump 2 (store w) 4 0 =
    Ret (lit ("<VirtualHost *:80>" ++ nlc ++
              "    ServerName example.net" ++ nlc ++
              "    ServerAlias www.example.net" ++ nlc ++
              "    DocumentRoot /var/www/examplenet/" ++ nlc ++
              "</VirtualHost>" ++ nlc)).
Proof. vm_compute. repeat split. Qed.

Example test_children :
  let h := store c1_world in
  Node.children 0 h 0 (Some (lit "<VirtualHost>")) false = Ret [2] /\
  outcome_map length (Node.children 0 h 2 (Some (lit "ServerAlias")) false)
    = Ret 2 /\
  Node.children 0 h 2 (Some (lit "serveralias")) false
    = Node.children 0 h 2 (Some (lit "SERVERALIAS")) false /\
  Node.children 0 h 2 (Some (lit "sslengine")) false = Ret [] /\
  outcome_map length (Node.children 3 h 2 (Some (lit "sslengine")) true)
    = Ret 1.
Proof. vm_compute. repeat split. Qed.

Example test_delete :
  let ssl := Node.first 3 (store c1_world) 0 (Some (lit "SSLEngine")) true in
  ssl = Ret (Some 12) /\
  Node.first 3 (store (snd (Node.delete 12 c1_world))) 0
             (Some (lit "SSLEngine")) true = Ret None.
Proof. vm_compute. repeat split. Qed.

Example test_find_vhost :
  let h := store c1_world in
  findVHost h 0 (lit "example.com") (Some (lit "*:80")) = Some 2 /\
  findVHost h 0 (lit "www.example.com") (Some (lit "*:443")) = Some 2 /\
  findVHost h 0 (lit "x.example.com") None = Some 2 /\
  findVHost h 0 (lit "example.com") (Some (lit "*:8888")) = None /\
  findVHost (store plain_root) 0 (lit "missing.example.com") None = None.
Proof. vm_compute. repeat split. Qed.

Example test_include :
  outcome_map length
    (Node.children 3
       (store (snd (fromText extra_env 1 (lit "Include extra.conf")
                      no_includes empty_world)))
       0 None true) = Ret 1 /\
  outcome_map length
    (Node.children 3
       (store (snd (fromText extra_env 1 (lit "Include extra.conf")
                      no_props empty_world)))
       0 None true) = Ret 2.
Proof. vm_compute. repeat split. Qed.

(** ** Characters and strings *)

Lemma chr_eqb_eq (a b : ascii) : chr_eqb a b = true <-> a = b.
Proof. apply Ascii.eqb_eq. Qed.



Lemma str_eqb_eq (a b : str) : str_eqb a b = true <-> a = b.
Proof.
  revert b. induction a as [|x a IH]; intros [|y b]; simpl; try easy.
  rewrite andb_true_iff, chr_eqb_eq, IH. split.
  - intros [-> ->]. reflexivity.
  - intros [= -> ->]. auto.
Qed.

Lemma str_eqb_refl (a : str) : str_eqb a a = true.
Proof. apply str_eqb_eq. reflexivity. Qed.

Lemma sptab_ws (c : ascii) : is_sptab c = true -> is_ws c = true.
Proof.
  unfold is_sptab, is_ws. intros H. apply orb_true_iff in H.
  destruct H as [-> | ->]; simpl; try reflexivity.
  destruct (chr_eqb c " "); reflexivity.
Qed.

Lemma not_ws_not_sptab (c : ascii) : is_ws c = false -> is_sptab c = false.
Proof.
  intros H. destruct (is_sptab c) eqn:E; [|reflexivity].
  apply sptab_ws in E. congruence.
Qed.


Lemma dropWhile_head (p : ascii -> bool) (s : str) (c : ascii) (r : str) :
  dropWhile p s = c :: r -> p c = false.
Proof.
  induction s as [|x s IH]; simpl; [discriminate|].
  destruct (p x) eqn:E; [exact IH|]. intros [= -> _]. exact E.
Qed.

Lemma dropWhile_id (p : ascii -> bool) (c : ascii) (r : str) :
  p c = false -> dropWhile p (c :: r) = c :: r.
Proof. intros H. simpl. rewrite H. reflexivity. Qed.

Lemma dropWhile_snoc (p : ascii -> bool) (s : str) (c : ascii) :
  dropWhile p (s ++ [c]) =
  match dropWhile p s with
  | [] => if p c then [] else [c]
  | r => r ++ [c]
  end.
Proof.
  induction s as [|x s IH]; simpl; [reflexivity|].
  destruct (p x); [exact IH | reflexivity].
Qed.

(** Stripping on the right, by recursion from the left. *)
Lemma strip_right_cons (p : ascii -> bool) (x : ascii) (t : str) :
  rev (dropWhile p (rev (x :: t))) =
  match rev (dropWhile p (rev t)) with
  | [] => if p x then [] else [x]
  | r => x :: r
  end.
Proof.
  simpl rev at 2. rewrite dropWhile_snoc.
  destruct (dropWhile p (rev t)) as [|y r] eqn:E; simpl.
  - destruct (p x); reflexivity.
  - rewrite rev_app_distr. simpl.
    destruct (rev r ++ [y]) eqn:E2; [|reflexivity].
    destruct (rev r); discriminate.
Qed.

Lemma strip_right_head (p : ascii -> bool) (t : str) (c : ascii) (r : str) :
  rev (dropWhile p (rev t)) = c :: r -> exists r', t = c :: r'.
Proof.
  destruct t as [|x t]; [discriminate|].
  rewrite strip_right_cons.
  destruct (rev (dropWhile p (rev t))).
  - destruct (p x); [discriminate|]. intros [= -> _]. eauto.
  - intros [= -> _]. eauto.
Qed.

(** A trimmed string starts with a character that is not white space. *)
Lemma trim_head (s : str) (c : ascii) (r : str) :
  trim s = c :: r -> is_ws c = false.
Proof.
  unfold trim. intros H.
  apply strip_right_head in H as [r' H].
  apply dropWhile_head in H. exact H.
Qed.

(** The directive pattern matches every trimmed text that is not empty:
    the constructor never comes to its [throw]. *)
Lemma match_cmdline_trim (s : str) :
  trim s <> [] -> exists m, match_cmdline (trim s) = Some m.
Proof.
  intros H. destruct (trim s) as [|c r] eqn:E; [congruence|].
  apply trim_head in E. apply not_ws_not_sptab in E.
  unfold match_cmdline. rewrite dropWhile_id by exact E. eauto.
Qed.

Lemma new_Node_total (p : NodeProps) : exists n, new_Node p = Ret n.
Proof.
  unfold new_Node.
  destruct (truthy (p_raw p)); [|eauto].
  destruct (isOpen_raw (p_raw p)).
  { destruct (match_open_tag _) as [[? ?]|]; eauto. }
  destruct (isClose_raw (p_raw p)).
  { destruct (match_close_tag _) as [[? ?]|]; eauto. }
  destruct (trim (split_head "#" (default [] (p_raw p)))) as [|c r] eqn:E;
    [eauto|].
  destruct (match_cmdline_trim (split_head "#" (default [] (p_raw p))))
    as [[m1 m2] Hm]; [congruence|].
  rewrite E in Hm. rewrite Hm. eauto.
Qed.

(** ** [add] *)

Lemma lookup_alter_eq (f : Node -> Node) (h : heap) (i : id) :
  alter f i h !! i = f <$> h !! i.
Proof. apply list_lookup_alter_eq. Qed.

Lemma lookup_alter_ne (f : Node -> Node) (h : heap) (i j : id) :
  i <> j -> alter f i h !! j = h !! j.
Proof. intros H. apply list_lookup_alter_ne. exact H. Qed.

Lemma lookup_alter_parent (f : Node -> Node) (h : heap) (i j : id) :
  (forall n, parent (f n) = parent n) ->
  parent <$> alter f i h !! j = parent <$> h !! j.
Proof.
  intros Hf. destruct (decide (i = j)) as [->|Hne].
  - rewrite lookup_alter_eq. destruct (h !! j); simpl; [|reflexivity].
    rewrite Hf. reflexivity.
  - rewrite lookup_alter_ne by exact Hne. reflexivity.
Qed.

(** C4, as the code has it: [p.add(c)] appends [c] to the content of [p]
    and makes it the last child of [p]; it assigns to no [parent] field
    (that of [c] stays what the constructor was given), changes no other
    node and writes nothing; given anything but a node it throws and
    leaves the world as it was. *)
Theorem add_appends_and_keeps_parents
    (w : world) (p : id) (v : value) (np : Node)
    (Hp : store w !! p = Some np) :
  match v with
  | VNode c =>
      exists w',
        Node.add p v w = (Ret tt, w') /\
        content <$> store w' !! p = Some (content np ++ [c]) /\
        lastChild <$> store w' !! p = Some (Some c) /\
        (forall i, parent <$> store w' !! i = parent <$> store w !! i) /\
        (forall i, i <> p -> store w' !! i = store w !! i) /\
        length (store w') = length (store w) /\
        console w' = console w
  | _ => Node.add p v w = (Throw ChildNotNode, w)
  end.
Proof.
  destruct v as [c| |]; try reflexivity.
  eexists. split; [reflexivity|]. simpl.
  rewrite lookup_alter_eq, Hp. simpl.
  repeat split.
  - intros i. apply lookup_alter_parent. reflexivity.
  - intros i Hi. apply lookup_alter_ne. congruence.
  - apply length_alter.
Qed.

Lemma add_appends_and_keeps_parents_witness :
  exists w',
    Node.add 0 (VNode 1) two_nodes = (Ret tt, w') /\
    content <$> store w' !! 0 = Some [1] /\
    lastChild <$> store w' !! 0 = Some (Some 1).
Proof.
  destruct (add_appends_and_keeps_parents two_nodes 0 (VNode 1) _ eq_refl)
    as (w' & H1 & H2 & H3 & _).
  exists w'. auto.
Defined.

(** C4, as stated, fails: after [root.add(cmd)] on a node made by
    [new Node({ raw })], the parent of [cmd] is still undefined. *)
Lemma add_leaves_parent_unset :
  let w := snd (Node.add 0 (VNode 1) two_nodes) in
  fst (Node.add 0 (VNode 1) two_nodes) = Ret tt /\
  content <$> store w !! 0 = Some [1] /\
  parent <$> store w !! 1 = Some None /\
  parent <$> store w !! 1 <> Some (Some 0).
Proof. vm_compute. repeat split; discriminate. Qed.

(** ** [insert] *)







(** ** [children] without recursion *)

Lemma children_direct (fuel : nat) (h : heap) (this : id) (nm : option str) :
  Node.children fuel h this nm false = Ret (direct_children h this nm).
Proof.
  unfold direct_children.
  destruct fuel; simpl;
    induction (default [] (content <$> h !! this)) as [|c cs IH]; simpl;
    try (destruct (truthy nm); reflexivity);
    rewrite IH; destruct (truthy nm); try reflexivity;
    destruct (name_matches h c (default [] nm)); reflexivity.
Qed.

(** ** [dump] of a section without children *)

(** C3 on the code: the section parsed from an open line and its close
    line has no children, and its dump still ends with the close tag
    line. *)
Theorem dump_closes_empty_section :
  let w := snd (fromText empty_env 0 empty_section_text no_props empty_world) in
  content <$> store w !! 1 = Some [] /\
  dump 1 (store w) 1 0 =
    Ret (lit ("<Directory /srv>" ++ nlc ++ "</Directory>" ++ nlc)) /\
  dump 2 (store w) 0 0 =
    Ret (lit ("<Directory /srv>" ++ nlc ++ "</Directory>" ++ nlc)).
Proof. vm_compute. repeat split. Qed.

(** ** [findVHost] *)

Lemma getAllHostnames_candidates (h : heap) (v : id) :
  getAllHostnames h v = candidate_hostnames h v.
Proof.
  unfold getAllHostnames, candidate_hostnames, Node.first.
  rewrite !children_direct. simpl.
  destruct (head _); reflexivity.
Qed.

Lemma hostname_in_spec (hostname : str) (names : list (option str)) :
  hostname_in hostname names =
  existsb (fun n => bool_decide (n = Some hostname)) names.
Proof.
  unfold hostname_in. induction names as [|n names IH]; simpl; [reflexivity|].
  rewrite IH. f_equal. destruct n as [x|].
  - destruct (str_eqb x hostname) eqn:E.
    + apply str_eqb_eq in E. subst. symmetry.
      apply bool_decide_eq_true_2. reflexivity.
    + symmetry. apply bool_decide_eq_false_2.
      intros [= ->]. rewrite str_eqb_refl in E. discriminate.
  - symmetry. apply bool_decide_eq_false_2. discriminate.
Qed.

(** C7, as the code has it: [findVHost] looks at the direct children named
    [<VirtualHost>] (up to case) in order and returns the first that
    passes [vhost_qualifies], [None] (null) when none does; the aliases
    are cut at single spaces, not at white space. *)
Theorem findVHost_first_qualifying
    (h : heap) (this : id) (hostname : str) (arg : option str) :
  findVHost h this hostname arg =
  head (List.filter (vhost_qualifies h hostname arg)
          (direct_children h this (Some (lit "<VirtualHost>")))).
Proof.
  unfold findVHost. rewrite children_direct.
  induction (direct_children h this (Some (lit "<VirtualHost>")))
    as [|v vs IH]; [reflexivity|].
  cbn [scan_vhosts List.filter]. unfold vhost_qualifies at 1.
  rewrite <- hostname_in_spec, <- getAllHostnames_candidates, IH.
  destruct (truthy arg); cbn [negb orb andb].
  - destruct (includes_str _ _); cbn [negb orb andb]; [|reflexivity].
    destruct (hostname_in _ _); reflexivity.
  - destruct (hostname_in _ _); reflexivity.
Qed.

(** C7, as stated, fails: with two aliases separated by a tab, the second
    is a white-space token of the args, and [findVHost] does not find the
    section by it. *)
Lemma findVHost_misses_tab_separated_alias :
  let h := store (snd (fromText empty_env 0 tabbed_alias_text no_props
                         empty_world)) in
  findVHost h 0 (lit "x.example.com") None = None /\
  claimed_findVHost h 0 (lit "x.example.com") None = Some 1.
Proof. vm_compute. split; reflexivity. Qed.

(** ** Errors of the parser *)

(** C8 on the code: parsing [site.conf] from the file stops with the
    error of [lstatSync] on the missing include target; parsing the same
    three lines as a text goes on to the last line. *)
Theorem readFile_aborts_on_missing_include :
  fst (fromFile site_env 3 (lit "site.conf") no_props empty_world)
    = Throw (NoEntry (lit "missing.conf")) /\
  let r := fromText site_env 3
             (lit ("ServerName example.com" ++ nlc ++
                   "Include missing.conf" ++ nlc ++
                   "ServerAlias www.example.com"))
             no_props empty_world in
  fst r = Ret 0 /\
  node_names (snd r) 0 = [lit "ServerName"; lit "Include"; lit "ServerAlias"].
Proof. vm_compute. repeat split. Qed.

(** In [readText], a matched file that cannot be read is skipped with a
    warning, and the next line is read. *)
Example readText_warns_and_goes_on :
  let r := fromText broken_env 1
             (lit ("Include broken.conf" ++ nlc ++ "ServerName example.com"))
             no_props empty_world in
  fst r = Ret 0 /\
  node_names (snd r) 0 = [lit "Include"; lit "ServerName"] /\
  console (snd r) =
    [lit "WARN failed to import broken.conf (Include broken.conf)"].
Proof. vm_compute. repeat split. Qed.


Section ReadLines.

Variable rf : id -> str -> M unit.
Variable resolve : str -> M (list str).

(** What the errors of the include resolution are. *)
Variable P : exn -> Prop.
Hypothesis resolve_throws :
  forall a w e, fst (resolve a w) = Throw e -> P e.






End ReadLines.

(** ** The parser without include resolution *)

Lemma place_eq (cur : option id) (node : id) (n : Node) (w : world) :
  place cur node n w =
  (Ret (fst (place_heap (store w) cur node n)),
   mkWorld (snd (place_heap (store w) cur node n)) (console w)).
Proof.
  unfold place, place_heap, add_to, Node.add, bind, ret, field, modify.
  destruct w as [h k]. simpl.
  destruct (Node.isOpen n); [destruct cur; reflexivity|].
  destruct (Node.isClose n); [|destruct cur; reflexivity].
  destruct cur as [p|]; simpl; [|reflexivity].
  destruct (h !! p) as [np|]; simpl; [|reflexivity].
  destruct (parent np); reflexivity.
Qed.

Lemma place_heap_length (h : heap) (cur : option id) (node : id) (n : Node) :
  length (snd (place_heap h cur node n)) = length h.
Proof.
  unfold place_heap.
  destruct (Node.isOpen n); [|destruct (Node.isClose n)];
    destruct cur; first [apply length_alter | reflexivity].
Qed.

Lemma place_heap_includes (h : heap) (cur : option id) (node : id) (n : Node)
    (i : id) :
  includes <$> snd (place_heap h cur node n) !! i = includes <$> h !! i.
Proof.
  assert (Ha : forall p,
    includes <$> alter (Node.push_child node) p h !! i = includes <$> h !! i).
  { intros p. destruct (decide (p = i)) as [->|Hne].
    - rewrite lookup_alter_eq. destruct (h !! i); reflexivity.
    - rewrite lookup_alter_ne by exact Hne. reflexivity. }
  unfold place_heap.
  destruct (Node.isOpen n); [|destruct (Node.isClose n)];
    destruct cur; first [apply Ha | reflexivity].
Qed.

Lemma line_step_length (file : option str) (st : option id * heap)
    (idx : nat) (line : str) :
  length (snd st) <= length (snd (line_step file st idx line)).
Proof.
  unfold line_step. destruct (trim line); [lia|].
  destruct (new_Node _); try lia.
  rewrite place_heap_length, length_app. lia.
Qed.

Lemma line_step_includes (file : option str) (st : option id * heap)
    (idx : nat) (line : str) (i : id) (b : bool) :
  includes <$> snd st !! i = Some b ->
  includes <$> snd (line_step file st idx line) !! i = Some b.
Proof.
  intros H. unfold line_step. destruct (trim line); [exact H|].
  destruct (new_Node _); try exact H.
  rewrite place_heap_includes.
  destruct (snd st !! i) as [ni|] eqn:E; [|discriminate].
  rewrite (lookup_app_l_Some _ _ _ _ E). exact H.
Qed.

Section NoIncludes.

Variable rf : id -> str -> M unit.
Variable resolve : str -> M (list str).
Variable this : id.
Variable file : option str.

Lemma read_line_noinc (cur : option id) (idx : nat) (line : str)
    (w : world) :
  includes <$> store w !! this = Some false ->
  read_line rf resolve this file cur idx line w =
  (Ret (fst (line_step file (cur, store w) idx line)),
   mkWorld (snd (line_step file (cur, store w) idx line)) (console w)).
Proof.
  intros Hinc. unfold read_line, line_step. simpl fst. simpl snd.
  destruct (trim line) as [|c l] eqn:El.
  { destruct w; reflexivity. }
  unfold line_props.
  destruct (new_Node_total
              (mkProps (Some (c :: l)) cur None file (Some idx) None))
    as [n Hn].
  unfold bind at 1, lift. rewrite Hn.
  unfold bind at 1, alloc. unfold bind at 1.
  rewrite place_eq. simpl store. simpl console.
  unfold bind at 1, field. cbn [store].
  rewrite place_heap_includes.
  destruct (store w !! this) as [nt|] eqn:Et; [|discriminate].
  rewrite (lookup_app_l_Some _ _ _ _ Et).
  simpl in Hinc. injection Hinc as Hinc. simpl. rewrite Hinc. simpl.
  reflexivity.
Qed.

Lemma read_lines_noinc (lines : list str) (cur : option id) (idx : nat)
    (w : world) :
  includes <$> store w !! this = Some false ->
  read_lines rf resolve this file cur idx lines w =
  (Ret (fst (lines_step file (cur, store w) idx lines)),
   mkWorld (snd (lines_step file (cur, store w) idx lines)) (console w)).
Proof.
  revert cur idx w. induction lines as [|line rest IH]; intros cur idx w Hinc.
  { destruct w; reflexivity. }
  simpl. unfold bind. rewrite (read_line_noinc _ _ _ _ Hinc).
  rewrite IH.
  - simpl. destruct (line_step file (cur, store w) (S idx) line).
    reflexivity.
  - simpl. apply (line_step_includes file (cur, store w)). exact Hinc.
Qed.

(** A line whose node is not named [Include] or [IncludeOptional]. *)
Lemma read_line_other_name (cur : option id) (idx : nat) (line : str)
    (w : world) (n : Node) :
  trim line <> [] ->
  new_Node (line_props (trim line) file cur idx) = Ret n ->
  is_include_name (name n) = false ->
  read_line rf resolve this file cur idx line w =
  (Ret (fst (place_heap (store w ++ [n]) cur (length (store w)) n)),
   mkWorld (snd (place_heap (store w ++ [n]) cur (length (store w)) n))
           (console w)).
Proof.
  intros Hne Hn Hname. unfold read_line.
  destruct (trim line) as [|c l] eqn:El; [congruence|].
  unfold line_props in Hn.
  unfold bind at 1, lift. rewrite Hn.
  unfold bind at 1, alloc. unfold bind at 1.
  rewrite place_eq. cbn [store console].
  unfold bind at 1, field. rewrite Hname, andb_false_r. reflexivity.
Qed.

End NoIncludes.

(** The fields that the constructor copies from its argument. *)
Lemma new_Node_fields (p : NodeProps) (n : Node) :
  new_Node p = Ret n ->
  raw n = p_raw p /\ parent n = p_parent p /\
  includes n = default true (p_includes p) /\
  content n = [] /\ lastChild n = None /\ prefix n = lit "    ".
Proof.
  unfold new_Node.
  destruct (truthy (p_raw p)); [|intros [= <-]; simpl; auto 10].
  destruct (isOpen_raw (p_raw p)).
  { destruct (match_open_tag _) as [[? ?]|]; intros [= <-]; simpl; auto 10. }
  destruct (isClose_raw (p_raw p)).
  { destruct (match_close_tag _) as [[? ?]|]; intros [= <-]; simpl; auto 10. }
  destruct (trim _); [intros [= <-]; simpl; auto 10|].
  destruct (match_cmdline _) as [[? ?]|]; [|discriminate].
  intros [= <-]; simpl; auto 10.
Qed.






(** ** Section closes *)

Lemma includes_close_cons (l : str) :
  l <> [] -> isClose_raw (Some l) = match_isClose l.
Proof. destruct l; [congruence | reflexivity]. Qed.

(** The node of a line that does not open a section and holds the two
    characters of a close tag. *)
Lemma close_line_node (l : str) (file : option str) (cur : option id)
    (idx : nat) :
  l <> [] -> match_isOpen l = false -> match_isClose l = true ->
  exists n,
    new_Node (line_props l file cur idx) = Ret n /\
    Node.isOpen n = false /\ Node.isClose n = true /\
    cmd n = None /\ parent n = cur /\ content n = [].
Proof.
  intros Hne Ho Hc.
  destruct (new_Node_total (line_props l file cur idx)) as [n Hn].
  exists n. split; [exact Hn|].
  pose proof (new_Node_fields _ _ Hn) as (Hraw & Hpar & _ & Hcont & _).
  simpl in Hraw, Hpar.
  unfold Node.isOpen, Node.isClose. rewrite Hraw.
  destruct l as [|c l]; [congruence|].
  split; [exact Ho|]. split; [exact Hc|]. split; [|auto].
  revert Hn. unfold new_Node, line_props. cbn [p_raw truthy isOpen_raw isClose_raw].
  rewrite Ho, Hc.
  destruct (match_close_tag _) as [[? ?]|]; intros [= <-]; reflexivity.
Qed.

(** C10: a line that is not blank and does not open a section, and that
    holds [</] anywhere (in a trailing comment, say), makes a close node:
    [place] adds it to no node and moves the current parent to its own
    parent; this is all that the turn of the loop does, unless the root
    resolves includes and the first word of the line is [Include] or
    [IncludeOptional]. *)
Theorem line_holding_close_is_section_close
    (rf : id -> str -> M unit) (resolve : str -> M (list str))
    (this : id) (file : option str) (cur : option id) (idx : nat)
    (line : str) (w : world)
    (Hline : trim line <> [])
    (Hopen : match_isOpen (trim line) = false)
    (Hclose : includes_str (lit "</") (trim line) = true)
    (Hcur : forall p, cur = Some p -> is_Some (store w !! p)) :
  exists n,
    new_Node (line_props (trim line) file cur idx) = Ret n /\
    Node.isOpen n = false /\ Node.isClose n = true /\ cmd n = None /\
    place cur (length (store w)) n (mkWorld (store w ++ [n]) (console w)) =
      (Ret (cur ≫= fun p => store w !! p ≫= parent),
       mkWorld (store w ++ [n]) (console w)) /\
    (includes <$> store w !! this = Some false \/
     is_include_name (name n) = false ->
     read_line rf resolve this file cur idx line w =
       (Ret (cur ≫= fun p => store w !! p ≫= parent),
        mkWorld (store w ++ [n]) (console w))).
Proof.
  destruct (close_line_node (trim line) file cur idx Hline Hopen Hclose)
    as (n & Hn & Ho & Hc & Hcmd & Hpar & Hcont).
  exists n. repeat split; try assumption.
  - rewrite place_eq. unfold place_heap. rewrite Ho, Hc. simpl.
    destruct cur as [p|]; simpl; [|reflexivity].
    destruct (Hcur p eq_refl) as [np Hnp].
    rewrite (lookup_app_l_Some _ _ _ _ Hnp), Hnp. reflexivity.
  - assert (Hplace : place_heap (store w ++ [n]) cur (length (store w)) n
                     = (cur ≫= fun p => store w !! p ≫= parent,
                        store w ++ [n])).
    { unfold place_heap. rewrite Ho, Hc. f_equal.
      destruct cur as [p|]; simpl; [|reflexivity].
      destruct (Hcur p eq_refl) as [np Hnp].
      rewrite (lookup_app_l_Some _ _ _ _ Hnp), Hnp. reflexivity. }
    intros [Hinc|Hname].
    + rewrite (read_line_noinc _ _ _ _ _ _ _ _ Hinc).
      unfold line_step. simpl fst. simpl snd.
      destruct (trim line) as [|c l] eqn:El; [congruence|].
      rewrite Hn, Hplace. reflexivity.
    + rewrite (read_line_other_name _ _ _ _ _ _ _ _ n Hline Hn Hname).
      rewrite Hplace. reflexivity.
Qed.

Lemma line_holding_close_is_section_close_witness :
  exists n,
    new_Node (line_props (trim (lit "  SSLEngine on # see </IfModule>"))
                         None (Some 1) 3) = Ret n /\
    Node.isOpen n = false /\ Node.isClose n = true /\ cmd n = None /\
    place (Some 1) (length (store vhost_world)) n
          (mkWorld (store vhost_world ++ [n]) (console vhost_world)) =
      (Ret (Some 0),
       mkWorld (store vhost_world ++ [n]) (console vhost_world)).
Proof.
  destruct (line_holding_close_is_section_close
              (fun _ _ => ret tt) (fun _ => ret []) 0 None (Some 1) 3
              (lit "  SSLEngine on # see </IfModule>") vhost_world)
    as (n & H1 & H2 & H3 & H4 & H5 & _).
  - vm_compute. discriminate.
  - vm_compute. reflexivity.
  - vm_compute. reflexivity.
  - intros p [= <-]. vm_compute. eauto.
  - exists n. repeat split; assumption.
Defined.

(** ** A close without an open *)

(** C2, as stated, fails: after a close at the root, the directive on the
    next line is not in the tree; the root stays empty. *)
Lemma directive_after_unmatched_close_is_dropped :
  let r := fromText empty_env 0
             (lit ("</VirtualHost>" ++ nlc ++ "ServerName example.com"))
             no_props empty_world in
  fst r = Ret 0 /\
  content <$> store (snd r) !! 0 = Some [] /\
  (name <$> store (snd r) !! 2, parent <$> store (snd r) !! 2)
    = (Some (lit "ServerName"), Some None).
Proof. vm_compute. repeat split. Qed.

Lemma read_lines_app (rf : id -> str -> M unit) (resolve : str -> M (list str))
    (this : id) (file : option str) (l1 l2 : list str) (cur : option id)
    (idx : nat) (w : world) :
  read_lines rf resolve this file cur idx (l1 ++ l2) w =
  match read_lines rf resolve this file cur idx l1 w with
  | (Ret p, w') => read_lines rf resolve this file p (idx + length l1) l2 w'
  | r => r
  end.
Proof.
  revert cur idx w. induction l1 as [|x l1 IH]; intros cur idx w; simpl.
  - rewrite Nat.add_0_r. reflexivity.
  - unfold bind.
    destruct (read_line rf resolve this file cur (S idx) x w)
      as [[p|e|] w']; try reflexivity.
    rewrite IH. replace (S idx + length l1) with (idx + S (length l1)) by lia.
    reflexivity.
Qed.

Lemma push_child_parent (c : id) (n : Node) :
  parent (Node.push_child c n) = parent n.
Proof. reflexivity. Qed.

Lemma place_heap_detached (k : nat) (h : heap) (cur : option id) (n : Node) :
  detached k (cur, h) -> parent n = cur -> k <= length h ->
  detached k (place_heap (h ++ [n]) cur (length h) n) /\
  forall i, i < k ->
    snd (place_heap (h ++ [n]) cur (length h) n) !! i = h !! i.
Proof.
  intros (Hcur & Hpar & Hlen) Hn Hk. simpl in Hcur, Hpar, Hlen.
  assert (Hpar' : forall i m q, k <= i -> (h ++ [n]) !! i = Some m ->
                    parent m = Some q -> k <= q).
  { intros i m q Hi Hm Hq. apply lookup_app_Some in Hm as [Hm|[Hge Hm]].
    - eapply Hpar; eassumption.
    - apply list_lookup_singleton_Some in Hm as [_ <-].
      apply Hcur. simpl. congruence. }
  assert (Halter : forall p i m q, k <= i ->
            alter (Node.push_child (length h)) p (h ++ [n]) !! i = Some m ->
            parent m = Some q -> k <= q).
  { intros p i m q Hi Hm Hq.
    pose proof (lookup_alter_parent (Node.push_child (length h)) (h ++ [n])
                  p i (push_child_parent _)) as He.
    rewrite Hm in He. simpl in He.
    destruct ((h ++ [n]) !! i) as [m'|] eqn:Em; [|discriminate].
    simpl in He. injection He as He.
    apply (Hpar' i m' q Hi Em). congruence. }
  assert (Hold : forall i, i < k -> (h ++ [n]) !! i = h !! i).
  { intros i Hi. apply lookup_app_l. lia. }
  assert (Hold' : forall p i, cur = Some p -> i < k ->
            alter (Node.push_child (length h)) p (h ++ [n]) !! i = h !! i).
  { intros p i Hp Hi. rewrite lookup_alter_ne; [apply Hold; exact Hi|].
    specialize (Hcur p Hp). lia. }
  unfold place_heap, detached.
  destruct (Node.isOpen n); [|destruct (Node.isClose n)];
    destruct cur as [p|]; cbn [fst snd];
    rewrite ?length_alter, ?length_app; simpl length.
  all: split; [split; [|split; [|lia]]|]; eauto.
  all: try (intros ? [= <-]; lia).
  all: try (intros ? ?; discriminate).
  cbn [mbind option_bind]. intros q Hq.
  destruct ((h ++ [n]) !! p) as [np|] eqn:Enp; [|discriminate].
  simpl in Hq. eapply Hpar'; [|exact Enp|exact Hq]. apply Hcur. reflexivity.
Qed.

Lemma line_step_detached (k : nat) (file : option str)
    (st : option id * heap) (idx : nat) (line : str) :
  detached k st ->
  detached k (line_step file st idx line) /\
  forall i, i < k -> snd (line_step file st idx line) !! i = snd st !! i.
Proof.
  intros Hd. unfold line_step. destruct (trim line) as [|c l]; [auto|].
  destruct (new_Node _) as [n| |] eqn:Hn; auto.
  apply new_Node_fields in Hn as (_ & Hp & _).
  destruct st as [cur h]. apply place_heap_detached; auto.
  apply Hd.
Qed.

Lemma lines_step_detached (k : nat) (file : option str) (lines : list str)
    (st : option id * heap) (idx : nat) :
  detached k st ->
  detached k (lines_step file st idx lines) /\
  forall i, i < k -> snd (lines_step file st idx lines) !! i = snd st !! i.
Proof.
  revert st idx. induction lines as [|x lines IH]; intros st idx Hd; simpl.
  - auto.
  - destruct (line_step_detached k file st (S idx) x Hd) as [Hd' Hsame].
    destruct (IH _ (S idx) Hd') as [Hd'' Hsame'].
    split; [exact Hd''|]. intros i Hi. rewrite Hsame', Hsame; auto.
Qed.

(** C2, as the code has it: a close line read while the current parent is
    the root raises no error, but leaves the parser with no parent, away
    from the tree.  When the root does not resolve includes, the rest of
    the text is read without error and changes no node that existed when
    the close was read: no later line is added to the tree of the root;
    the parser ends with no parent or inside a section made after the
    close. *)
Theorem unmatched_close_detaches_parser
    (rf : id -> str -> M unit) (resolve : str -> M (list str))
    (this : id) (file : option str) (pre post : list str) (c : str)
    (w w1 : world)
    (Hpre : read_lines rf resolve this file (Some this) 0 pre w
            = (Ret (Some this), w1))
    (Hinc : includes <$> store w1 !! this = Some false)
    (Hroot : parent <$> store w1 !! this = Some None)
    (Hline : trim c <> [])
    (Hopen : match_isOpen (trim c) = false)
    (Hclose : match_isClose (trim c) = true) :
  exists p' w2,
    read_lines rf resolve this file (Some this) 0 (pre ++ c :: post) w
      = (Ret p', w2) /\
    (forall i, i < length (store w1) -> store w2 !! i = store w1 !! i) /\
    (forall p, p' = Some p -> length (store w1) < p) /\
    console w2 = console w1.
Proof.
  rewrite read_lines_app, Hpre.
  rewrite (read_lines_noinc _ _ _ _ _ _ _ _ Hinc).
  set (idx := 0 + length pre).
  eexists _, _. split; [reflexivity|]. cbn [store console].
  cbn [lines_step].
  destruct (close_line_node (trim c) file (Some this) (S idx)
              Hline Hopen Hclose) as (n & Hn & Ho & Hc & _ & Hp & _).
  assert (Hstep : line_step file (Some this, store w1) (S idx) c
                  = (None, store w1 ++ [n])).
  { unfold line_step. cbn [fst snd].
    destruct (trim c) as [|x l] eqn:El; [congruence|].
    rewrite Hn. unfold place_heap. rewrite Ho, Hc. cbn [mbind option_bind].
    destruct (store w1 !! this) as [nt|] eqn:Et; [|discriminate].
    rewrite (lookup_app_l_Some _ _ _ _ Et). simpl.
    simpl in Hroot. injection Hroot as ->. reflexivity. }
  rewrite Hstep.
  destruct (lines_step_detached (S (length (store w1))) file post
              (None, store w1 ++ [n]) (S idx)) as [(Hd1 & _ & _) Hsame].
  { split; [|split]; cbn [fst snd].
    - discriminate.
    - intros i m q Hi Hm _. apply lookup_lt_Some in Hm.
      rewrite length_app in Hm. simpl in Hm. lia.
    - rewrite length_app. simpl. lia. }
  split; [|split; [|reflexivity]].
  - intros i Hi. rewrite Hsame by lia. apply lookup_app_l. exact Hi.
  - intros p Hp'. apply Hd1 in Hp'. lia.
Qed.

Lemma unmatched_close_detaches_parser_witness :
  exists p' w2,
    read_lines (readFile empty_env 0) (resolve_text empty_env) 0 None
      (Some 0) 0
      ([lit "ServerName example.com"] ++ lit "</VirtualHost>"
         :: [lit "ServerAlias www.example.com"])
      plain_root
      = (Ret p', w2) /\
    (forall i, i < length (store after_one_directive) ->
       store w2 !! i = store after_one_directive !! i).
Proof.
  destruct (unmatched_close_detaches_parser
              (readFile empty_env 0) (resolve_text empty_env) 0 None
              [lit "ServerName example.com"]
              [lit "ServerAlias www.example.com"]
              (lit "</VirtualHost>") plain_root after_one_directive)
    as (p' & w2 & Hrun & Hsame & _).
  - vm_compute. reflexivity.
  - vm_compute. reflexivity.
  - vm_compute. reflexivity.
  - vm_compute. discriminate.
  - vm_compute. reflexivity.
  - vm_compute. reflexivity.
  - exists p', w2. split; [exact Hrun|]. exact Hsame.
Defined.

(** ** [set] *)










(** ** More on strings: trimming and substrings *)

Lemma head_rev (s : str) : head (rev s) = last s.
Proof.
  destruct s as [|c s] using rev_ind; [reflexivity|].
  rewrite rev_app_distr, last_snoc. reflexivity.
Qed.

Lemma last_rev (s : str) : last (rev s) = head s.
Proof. rewrite <- head_rev, rev_involutive. reflexivity. Qed.

Lemma dropWhile_all (p : ascii -> bool) (s : str) :
  forallb p s = true -> dropWhile p s = [].
Proof.
  induction s as [|c s IH]; simpl; [reflexivity|].
  intros H. apply andb_true_iff in H as [-> H]. auto.
Qed.










Lemma trim_all_ws (s : str) : all_ws s = true -> trim s = [].
Proof. intros H. unfold trim. rewrite (dropWhile_all is_ws s H). reflexivity. Qed.







Lemma sub_refl (s : str) : sub s s.
Proof. exists [], []. rewrite app_nil_r. reflexivity. Qed.


Lemma sub_app_l (t a b : str) : sub t a -> sub t (a ++ b).
Proof.
  intros (x & y & ->). exists x, (y ++ b). rewrite <- !app_assoc. reflexivity.
Qed.

Lemma sub_app_r (t a b : str) : sub t b -> sub t (a ++ b).
Proof.
  intros (x & y & ->). exists (a ++ x), y. rewrite <- !app_assoc. reflexivity.
Qed.




Lemma sub_forallb (q : ascii -> bool) (t s : str) :
  sub t s -> forallb q s = true -> forallb q t = true.
Proof.
  intros (x & y & ->). rewrite !forallb_app.
  intros H. apply andb_true_iff in H as [_ H].
  apply andb_true_iff in H as [H _]. exact H.
Qed.










(** ** The parts of a parsed line, and the line dumped from them *)














(** ** [set], again *)






Lemma with_args_twice (v : str) (n : Node) :
  with_args v (with_args v n) = with_args v n.
Proof. reflexivity. Qed.





(** ** Section lines and comment lines *)







(** ** One line through [dump] and back *)


Lemma forallb_sub_app (q : ascii -> bool) (l a b : str) :
  forallb q l = true -> sub a l -> forallb q b = true ->
  forallb q (a ++ b) = true.
Proof.
  intros Hl Ha Hb. rewrite forallb_app, Hb, andb_true_r.
  eapply sub_forallb; eassumption.
Qed.



(** ** Trees, and the store as a tree *)





(** ** The parser on trees *)




Lemma push_child_payload (c : id) (n : Node) (l : str) :
  payload n l -> payload (Node.push_child c n) l.
Proof. exact (fun H => H). Qed.

Lemma push_child_root_ok (c : id) (n : Node) :
  root_ok n -> root_ok (Node.push_child c n).
Proof. exact (fun H => H). Qed.

Section Spine.

Variable h : heap.
Variable r : id.
Variable n : Node.

(** The store after a node [n] was made and added to the parent [p]. *)
Let k := length h.





End Spine.






(** ** Trees of regular lines *)







(** ** [dump] on trees *)
















(** ** Parsing the dump of a tree *)













(** ** [fromText], [dump] and [fromText] again *)








